(** * Tic-tac-toe with move history: the [Game] component of [src/App.js]

    The component keeps three pieces of React state ([roundNum], [squares],
    [history]) and changes them from three event handlers ([Clicked],
    [backToState], [reloadPage]).  Each handler reads the values of the
    current render and calls every setter at most once, so a handler is
    modelled as a function from the state of the render it runs in to the
    state of the next render.  An uncaught [TypeError] leaves the state as
    it was and is kept as the second constructor of [completion]. *)

From stdpp Require Import base list strings relations.

(** ** JavaScript values *)

(** The only strings ever written into a square are the constants [p1] and
    [p2] of the component. *)
Inductive marker := X | O.

#[global] Instance marker_eq_dec : EqDecision marker.
Proof. solve_decision. Defined.

Definition marker_str (m : marker) : string :=
  match m with X => "X" | O => "O" end.

(** A square holds [null] or a marker; a board is a JavaScript array of
    squares.  [None] stands for [null] and for [undefined] alike: the
    program tests such values for truthiness only, and compares two squares
    with [===] only after both were found truthy. *)
Abbreviation cell := (option marker).
Abbreviation board := (list (option marker)).

Module Js.

(** Outcome of running a piece of code: a value, or an uncaught
    [TypeError] (reading a property of [null]). *)
Inductive completion (A : Type) : Type :=
| Normal (a : A)
| TypeError.
Global Arguments Normal {A} a.
Global Arguments TypeError {A}.

#[global] Instance completion_ret : MRet completion := λ A a, Normal a.
#[global] Instance completion_bind : MBind completion := λ A B f c,
  match c with Normal a => f a | TypeError => TypeError end.
#[global] Instance completion_fmap : FMap completion := λ A B f c,
  match c with Normal a => Normal (f a) | TypeError => TypeError end.

(** [v ? .. : ..], [v || ..], [v && ..] on a value that is [null],
    [undefined], [false], a marker string or an array. *)
Definition truthy {A} (v : option A) : bool :=
  match v with Some _ => true | None => false end.

(** [arr[i]]: reading past the end gives [undefined]. *)
Definition get {A} (arr : list (option A)) (i : nat) : option A :=
  match arr !! i with Some v => v | None => None end.

(** [arr[i] = v]: writing past the end extends the array, leaving holes. *)
Definition set {A} (arr : list (option A)) (i : nat) (v : option A)
  : list (option A) :=
  if decide (i < length arr) then <[i:=v]> arr
  else arr ++ replicate (i - length arr) None ++ [v].

(** [obj[i]] where [obj] itself may be [null]. *)
Definition deref {A} (obj : option A) : completion A :=
  match obj with Some a => Normal a | None => TypeError end.

(** [Array(n).fill(null)] *)
Definition fill_null {A} (n : nat) : list (option A) := replicate n None.

End Js.
Import Js.

(** ** State of the component *)

Record state := State {
  roundNum : nat;
  squares : option board;          (* [null] after a rewind to an empty slot *)
  history : list (option board)
}.

Definition p1 : marker := X.
Definition p2 : marker := O.

(** The three [useState] initial values. *)
Definition initial : state :=
  {| roundNum := 0; squares := Some (fill_null 9); history := fill_null 9 |}.

(** ** [calculateWinner] *)

Definition lines : list (nat * nat * nat) :=
  [ (0, 1, 2); (3, 4, 5); (6, 7, 8);
    (0, 3, 6); (1, 4, 7); (2, 5, 8);
    (0, 4, 8); (2, 4, 6) ].

(** The condition of the [if] inside the loop. *)
Definition line_complete (sq : board) (l : nat * nat * nat) : bool :=
  let '(a, b, c) := l in
  truthy (get sq a) && truthy (get sq b) && truthy (get sq c)
  && bool_decide (get sq a = get sq b)
  && bool_decide (get sq a = get sq c)
  && bool_decide (get sq b = get sq c).

(** The [for] loop over [lines], from the entry it has arrived at;
    [None] is the final [return false]. *)
Fixpoint scan_lines (sq : board) (ls : list (nat * nat * nat)) : option marker :=
  match ls with
  | [] => None
  | l :: rest =>
      if line_complete sq l then get sq (l.1.1) else scan_lines sq rest
  end.

(** [calculateWinner] reads the [squares] of the enclosing render; on
    [null] the first [squares[a]] throws. *)
Definition calculateWinner (squares : option board) : completion (option marker) :=
  sq ← deref squares;
  mret (scan_lines sq lines).

(** ** Rendering: [checkGameOver] *)

Record view := View {
  status : string;
  againContent : bool              (* whether the "Again?" button is shown *)
}.

Definition checkGameOver (roundNum : nat) (winner : option marker) : view :=
  {| status :=
       if bool_decide (9 ≤ roundNum) then "Game Over, it's a draw!"
       else match winner with
            | Some w => "Winner: " +:+ marker_str w
            | None =>
                "Next player: "
                +:+ marker_str (if bool_decide (roundNum `mod` 2 = 0) then p1 else p2)
            end;
     againContent := bool_decide (9 ≤ roundNum) || truthy winner |}.

(** The body of [Game] up to the call of [checkGameOver]. *)
Definition Game (s : state) : completion view :=
  winner ← calculateWinner (squares s);
  mret (checkGameOver (roundNum s) winner).

(** ** Event handlers *)

Definition reloadPage (s : state) : state :=
  {| roundNum := 0; squares := Some (fill_null 9); history := fill_null 9 |}.

(** [n] rounds of the loop [for (i = ..; i < history.length; i++)
    modifiedHistory[i] = null], the counter standing at [i]. *)
Fixpoint clear_slots (n i : nat) (h : list (option board)) : list (option board) :=
  match n with
  | 0 => h
  | S n' => clear_slots n' (S i) (set h i None)
  end.

Definition backToState (s : state) (index : nat) : state :=
  let modifiedHistory :=
    clear_slots (length (history s) - index) index (history s) in
  {| roundNum := index;
     squares := get (history s) index;
     history := modifiedHistory |}.

Definition Clicked (s : state) (index : nat) : completion state :=
  sq ← deref (squares s);
  if truthy (get sq index) then mret s
  else
    winner ← calculateWinner (squares s);
    if truthy winner then mret s
    else
      let nextSquares :=
        set sq index
          (Some (if bool_decide (roundNum s `mod` 2 = 0) then p1 else p2)) in
      let modifiedHistory := set (history s) (roundNum s) (Some sq) in
      mret {| roundNum := roundNum s + 1;
              squares := Some nextSquares;
              history := modifiedHistory |}.

(** The state a click leads to when it is not ignored, with the parity
    test written as [Nat.even]; [Clicked_array] relates it to [Clicked]. *)
Definition moved (s : state) (sq : board) (index : nat) : state :=
  {| roundNum := roundNum s + 1;
     squares := Some (set sq index (Some (if Nat.even (roundNum s) then X else O)));
     history := set (history s) (roundNum s) (Some sq) |}.

(** A sequence of clicks, from left to right. *)
Fixpoint play (s : state) (moves : list nat) : completion state :=
  match moves with
  | [] => mret s
  | index :: rest => s' ← Clicked s index; play s' rest
  end.

(** ** Reachable states *)

(** What the rendered page lets the user do: click one of the nine squares,
    click a "Back to move k" button (rendered for the truthy entries of
    [history] only), or click "Again?". *)
Inductive step : state → state → Prop :=
| step_click s index s' :
    index < 9 → Clicked s index = Normal s' → step s s'
| step_back s k b :
    history s !! k = Some (Some b) → step s (backToState s k)
| step_reset s :
    step s (reloadPage s).

Definition reachable (s : state) : Prop := rtc step initial s.

(** Number of squares of a board that hold a marker. *)
Fixpoint marks (b : board) : nat :=
  match b with
  | [] => 0
  | c :: rest => (if truthy c then 1 else 0) + marks rest
  end.

(** The invariant carried along the reachable states. *)
Record consistent (s : state) : Prop := Consistent {
  cons_squares : ∃ sq, squares s = Some sq ∧ length sq = 9 ∧ marks sq = roundNum s;
  cons_history_length : length (history s) = 9;
  cons_history : ∀ i b, history s !! i = Some (Some b) → length b = 9 ∧ marks b = i
}.

(** ** The winning triples as the specification lists them *)

Definition spec_rows : list (nat * nat * nat) := [ (0, 1, 2); (3, 4, 5); (6, 7, 8) ].
Definition spec_columns : list (nat * nat * nat) := [ (0, 3, 6); (1, 4, 7); (2, 5, 8) ].
Definition spec_diagonals : list (nat * nat * nat) := [ (0, 4, 8); (2, 4, 6) ].
Definition spec_triples : list (nat * nat * nat) :=
  spec_rows ++ spec_columns ++ spec_diagonals.

(** All three cells of the triple hold the marker [m]. *)
Definition triple_of (sq : board) (t : nat * nat * nat) (m : marker) : Prop :=
  get sq t.1.1 = Some m ∧ get sq t.1.2 = Some m ∧ get sq t.2 = Some m.

(** ** Rendering: squares, rows and the list of moves *)

(** What [Square] returns: a button that shows [value] and calls
    [onSquareClick] when clicked.  The only handler ever passed is the
    closure [() => Clicked(index)], kept here as its [index]. *)
Record square_button := SquareButton {
  shown : cell;
  onClick : nat
}.

Definition Square (value : cell) (onSquareClick : nat) : square_button :=
  {| shown := value; onClick := onSquareClick |}.

(** [renderSquare] reads the [squares] of the component (the array that
    [renderRowFrom] declares under the same name is local to that
    function); on [null] the read throws. *)
Definition renderSquare (squares : option board) (index : nat)
  : completion square_button :=
  sq ← deref squares;
  mret (Square (get sq index) index).

(** [n] rounds of the loop [for (i = ..; i < 3; i++)] of [renderRowFrom],
    the counter standing at [i] and [row] holding what was pushed. *)
Fixpoint push_squares (squares : option board) (startIndex n i : nat)
    (row : list square_button) : completion (list square_button) :=
  match n with
  | 0 => mret row
  | S n' =>
      b ← renderSquare squares (startIndex + i);
      push_squares squares startIndex n' (S i) (row ++ [b])
  end.

Definition renderRowFrom (squares : option board) (startIndex : nat)
  : completion (list square_button) :=
  push_squares squares startIndex 3 0 [].

(** An entry of [moves]: the button "Back to move [index]", whose handler
    is [() => backToState(index)], or the empty string. *)
Inductive move_entry :=
| BackButton (index : nat)
| NoEntry.

#[global] Instance move_entry_eq_dec : EqDecision move_entry.
Proof. solve_decision. Defined.

(** [history.map((state, index) => state ? <button ..> : "")] *)
Definition moves (history : list (option board)) : list move_entry :=
  imap (λ index state, if truthy state then BackButton index else NoEntry) history.

(** What [Game] returns: the status line, the "Again?" button, the three
    rows of the board and the list of moves. *)
Record page := Page {
  page_view : view;
  page_rows : list (list square_button);
  page_moves : list move_entry
}.

Definition Game_render (s : state) : completion page :=
  v ← Game s;
  let moves := moves (history s) in
  row0 ← renderRowFrom (squares s) 0;
  row3 ← renderRowFrom (squares s) 3;
  row6 ← renderRowFrom (squares s) 6;
  mret {| page_view := v; page_rows := [row0; row3; row6]; page_moves := moves |}.

(** ** Vocabulary of the further properties *)

(** The player whose marker [Clicked] writes in round [n]. *)
Definition mover (n : nat) : marker := if Nat.even n then X else O.

(** Number of squares of a board that hold the marker [m]. *)
Fixpoint count_of (m : marker) (b : board) : nat :=
  match b with
  | [] => 0
  | c :: rest => (if bool_decide (c = Some m) then 1 else 0) + count_of m rest
  end.

(** After [n] moves: X and O have [n] markers together, and X has as many
    as O when [n] is even, one more when [n] is odd. *)
Definition balanced (n : nat) (b : board) : Prop :=
  count_of X b + count_of O b = n
  ∧ count_of X b = count_of O b + (if Nat.even n then 0 else 1).

(** The history slots below the round number are filled, the others
    empty. *)
Definition slots_filled (s : state) : Prop :=
  ∀ i, is_Some (get (history s) i) ↔ i < roundNum s.

Definition counts_balanced (s : state) : Prop :=
  (∀ sq, squares s = Some sq → balanced (roundNum s) sq)
  ∧ (∀ i b, get (history s) i = Some b → balanced i b).

(** No recorded board has a winner, and a complete line on the current
    board belongs to the player who moved last. *)
Definition winner_moved_last (s : state) : Prop :=
  (∀ i b, get (history s) i = Some b → scan_lines b lines = None)
  ∧ (∀ sq t m, squares s = Some sq → t ∈ lines → triple_of sq t m →
       0 < roundNum s ∧ m = mover (roundNum s - 1)).

(** [s'] continues the game of [s]: the history of [s'] agrees with that
    of [s] below the round of [s], holds the board of [s] at that round
    once a move was made, and [s'] is [s] itself otherwise. *)
Definition continues (s s' : state) : Prop :=
  roundNum s ≤ roundNum s'
  ∧ (∀ j, j < roundNum s → history s' !! j = history s !! j)
  ∧ (roundNum s < roundNum s' → history s' !! roundNum s = Some (squares s))
  ∧ (roundNum s' = roundNum s → s' = s).

(** ** Sample states *)

(** The state after the clicks 0, 3, 1, 4, 2 of the specification's
    scenario: X holds the top row. *)
Definition top_row_state : state :=
    {| roundNum := 5;
       squares := Some [Some X; Some X; Some X; Some O; Some O; None; None; None; None];
       history :=
         [ Some [None; None; None; None; None; None; None; None; None];
           Some [Some X; None; None; None; None; None; None; None; None];
           Some [Some X; None; None; Some O; None; None; None; None; None];
           Some [Some X; Some X; None; Some O; None; None; None; None; None];
           Some [Some X; Some X; None; Some O; Some O; None; None; None; None];
           None; None; None; None ] |}.

(** The state after the clicks 5, 1, 7, 2, 0, 3, 4, 6, 8: the ninth move
    fills the board and completes the diagonal 0, 4, 8 for X. *)
Definition ninth_move_win : state :=
  {| roundNum := 9;
     squares := Some [Some X; Some O; Some O; Some O; Some X; Some X; Some O; Some X; Some X];
     history :=
       [ Some [None; None; None; None; None; None; None; None; None];
         Some [None; None; None; None; None; Some X; None; None; None];
         Some [None; Some O; None; None; None; Some X; None; None; None];
         Some [None; Some O; None; None; None; Some X; None; Some X; None];
         Some [None; Some O; Some O; None; None; Some X; None; Some X; None];
         Some [Some X; Some O; Some O; None; None; Some X; None; Some X; None];
         Some [Some X; Some O; Some O; Some O; None; Some X; None; Some X; None];
         Some [Some X; Some O; Some O; Some O; Some X; Some X; None; Some X; None];
         Some [Some X; Some O; Some O; Some O; Some X; Some X; Some O; Some X; None] ] |}.

(** * Properties *)

(** ** Array reads and writes *)

Section arrays.
Context {A : Type}.
Implicit Types (arr : list (option A)) (v : option A) (i j : nat).

Lemma get_lookup arr i v : arr !! i = Some v → get arr i = v.
Proof. unfold get. by intros ->. Qed.

Lemma get_ge arr i : length arr ≤ i → get arr i = None.
Proof. intros Hi. unfold get. by rewrite lookup_ge_None_2. Qed.

Lemma get_Some_lookup arr i (a : A) : get arr i = Some a → arr !! i = Some (Some a).
Proof. unfold get. destruct (arr !! i) as [v|]; naive_solver. Qed.

Lemma set_lt arr i v : i < length arr → set arr i v = <[i:=v]> arr.
Proof. intros Hi. unfold set. by rewrite decide_True. Qed.

Lemma length_set_lt arr i v : i < length arr → length (set arr i v) = length arr.
Proof. intros Hi. by rewrite set_lt, length_insert. Qed.

Lemma get_set_eq arr i v : get (set arr i v) i = v.
Proof.
  unfold get, set. case_decide as Hi.
  - by rewrite list_lookup_insert_eq.
  - rewrite lookup_app_r by lia.
    rewrite lookup_app_r by (rewrite length_replicate; lia).
    rewrite length_replicate.
    by replace (i - length arr - (i - length arr)) with 0 by lia.
Qed.

Lemma get_set_ne arr i j v : i ≠ j → get (set arr i v) j = get arr j.
Proof.
  intros Hij. unfold get, set. case_decide as Hi.
  - by rewrite list_lookup_insert_ne.
  - destruct (decide (j < length arr)) as [Hj|Hj].
    + by rewrite lookup_app_l.
    + rewrite (lookup_ge_None_2 arr j) by lia.
      rewrite lookup_app_r by lia.
      destruct (decide (j - length arr < i - length arr)) as [Hlt|Hge].
      * rewrite lookup_app_l by (by rewrite length_replicate).
        by rewrite lookup_replicate_2.
      * rewrite lookup_app_r by (rewrite length_replicate; lia).
        rewrite length_replicate.
        rewrite lookup_ge_None_2; [done|simpl; lia].
Qed.
End arrays.

(** ** The loop of [backToState] *)

Lemma clear_slots_lookup n : ∀ i (h : list (option board)) j,
  n ≤ length h - i →
  clear_slots n i h !! j = if decide (i ≤ j < i + n) then Some None else h !! j.
Proof.
  induction n as [|n IH]; intros i h j Hn; simpl.
  - case_decide; [lia|done].
  - rewrite set_lt by lia.
    rewrite IH by (rewrite length_insert; lia).
    destruct (decide (i = j)) as [->|Hij].
    + rewrite list_lookup_insert_eq by lia.
      repeat case_decide; done || lia.
    + rewrite list_lookup_insert_ne by done.
      repeat case_decide; done || lia.
Qed.

Lemma clear_slots_length n : ∀ i (h : list (option board)),
  n ≤ length h - i → length (clear_slots n i h) = length h.
Proof.
  induction n as [|n IH]; intros i h Hn; simpl; [done|].
  rewrite set_lt by lia.
  rewrite IH; rewrite length_insert; [done|lia].
Qed.

Lemma backToState_history_lookup (s : state) (k j : nat) :
  history (backToState s k) !! j
  = if decide (k ≤ j < length (history s)) then Some None else history s !! j.
Proof.
  simpl. rewrite clear_slots_lookup by done.
  repeat case_decide; done || lia.
Qed.

Lemma backToState_history_length (s : state) (k : nat) :
  length (history (backToState s k)) = length (history s).
Proof. simpl. by apply clear_slots_length. Qed.

Lemma backToState_history_cleared (s : state) (k j : nat) :
  k ≤ j → get (history (backToState s k)) j = None.
Proof.
  intros Hkj. unfold get. rewrite backToState_history_lookup.
  case_decide as Hj; [done|].
  by rewrite lookup_ge_None_2 by lia.
Qed.

Lemma backToState_history_kept (s : state) (k j : nat) :
  j < k → history (backToState s k) !! j = history s !! j.
Proof.
  intros Hjk. rewrite backToState_history_lookup.
  case_decide; [lia|done].
Qed.

(** ** [calculateWinner] *)

Lemma line_complete_triple (sq : board) (t : nat * nat * nat) :
  line_complete sq t = true ↔ ∃ m, triple_of sq t m.
Proof.
  destruct t as [[a b] c]. unfold line_complete, triple_of. simpl.
  split.
  - destruct (get sq a) as [ma|], (get sq b) as [mb|], (get sq c) as [mc|];
      simpl; try done.
    intros H. exists ma.
    repeat (apply andb_prop in H as [H ?]).
    repeat match goal with
           | E : bool_decide _ = true |- _ => apply bool_decide_eq_true in E
           end.
    naive_solver.
  - intros (m & -> & -> & ->). simpl. by rewrite !bool_decide_eq_true_2.
Qed.

Lemma line_complete_get (sq : board) (t : nat * nat * nat) (m : marker) :
  line_complete sq t = true → (get sq t.1.1 = Some m ↔ triple_of sq t m).
Proof.
  intros (m' & Ha & Hb & Hc)%line_complete_triple.
  unfold triple_of. split; [|by intros [? _]].
  intros Hm. rewrite Ha in Hm. injection Hm as ->. done.
Qed.

Lemma scan_lines_Some (sq : board) (ls : list (nat * nat * nat)) (m : marker) :
  scan_lines sq ls = Some m ↔
  ∃ pre t post, ls = pre ++ t :: post ∧ triple_of sq t m
                ∧ Forall (λ t', ∀ m', ¬ triple_of sq t' m') pre.
Proof.
  induction ls as [|l rest IH]; simpl.
  - split; [done|]. intros (pre & t & post & E & _). by destruct pre.
  - destruct (line_complete sq l) eqn:Hl.
    + rewrite (line_complete_get _ _ m Hl). split.
      * intros Hm. by exists [], l, rest.
      * intros ([|t' pre] & t & post & E & Ht & Hpre).
        { by injection E as ->. }
        injection E as -> _. apply Forall_cons_1 in Hpre as [Hno _].
        apply line_complete_triple in Hl as [m' Hm']. by destruct (Hno m').
    + rewrite IH. split.
      * intros (pre & t & post & -> & Ht & Hpre).
        exists (l :: pre), t, post. split_and!; [done|done|].
        constructor; [|done]. intros m' Hm'.
        assert (line_complete sq l = true) by (apply line_complete_triple; eauto).
        congruence.
      * intros ([|t' pre] & t & post & E & Ht & Hpre).
        { injection E as -> _.
          assert (line_complete sq t = true) by (apply line_complete_triple; eauto).
          congruence. }
        injection E as -> ->. apply Forall_cons_1 in Hpre as [_ Hpre].
        by exists pre, t, post.
Qed.

Lemma scan_lines_None (sq : board) (ls : list (nat * nat * nat)) :
  scan_lines sq ls = None ↔ Forall (λ t, ∀ m, ¬ triple_of sq t m) ls.
Proof.
  induction ls as [|l rest IH]; simpl.
  - split; [constructor|done].
  - destruct (line_complete sq l) eqn:Hl.
    + pose proof Hl as (m & Hm)%line_complete_triple.
      split.
      * intros Hnone. destruct Hm as [Hm _]. congruence.
      * intros [Hno _]%Forall_cons_1. by destruct (Hno m).
    + rewrite IH. split.
      * intros Hrest. constructor; [|done]. intros m Hm.
        assert (line_complete sq l = true) by (apply line_complete_triple; eauto).
        congruence.
      * by intros [_ ?]%Forall_cons_1.
Qed.

Lemma calculateWinner_array (sq : board) :
  calculateWinner (Some sq) = Normal (scan_lines sq lines).
Proof. reflexivity. Qed.

Lemma calculateWinner_array_inv (sq : board) (w : option marker) :
  calculateWinner (Some sq) = Normal w → scan_lines sq lines = w.
Proof. rewrite calculateWinner_array. congruence. Qed.

Lemma calculateWinner_null : calculateWinner None = TypeError.
Proof. reflexivity. Qed.

(** C4. [calculateWinner] goes through exactly the eight triples of the
    specification (rows, columns, diagonals) in the listed order; it
    returns the marker [m] exactly when some triple holds [m] in all three
    cells and no triple listed before it is complete, and it returns
    [false] exactly when no triple is complete. On an array it never
    throws. *)
Theorem calculateWinner_first_complete_triple (sq : board) :
  lines = spec_triples
  ∧ (∃ w, calculateWinner (Some sq) = Normal w)
  ∧ (∀ m, calculateWinner (Some sq) = Normal (Some m) ↔
       ∃ pre t post, lines = pre ++ t :: post ∧ triple_of sq t m
                     ∧ Forall (λ t', ∀ m', ¬ triple_of sq t' m') pre)
  ∧ (calculateWinner (Some sq) = Normal None ↔
       Forall (λ t, ∀ m, ¬ triple_of sq t m) lines).
Proof.
  split_and!.
  - reflexivity.
  - by eexists.
  - intros m. rewrite calculateWinner_array.
    pose proof (scan_lines_Some sq lines m) as Hscan.
    split; [intros [= E]; by apply Hscan|intros E; f_equal; by apply Hscan].
  - rewrite calculateWinner_array.
    pose proof (scan_lines_None sq lines) as Hscan.
    split; [intros [= E]; by apply Hscan|intros E; f_equal; by apply Hscan].
Qed.

(** ** [reloadPage] *)

(** C8. From every state [reloadPage] leads to the start state: nine
    empty squares, round number 0 and nine empty history slots. *)
Theorem reloadPage_initial (s : state) :
  reloadPage s = initial
  ∧ squares (reloadPage s) = Some (replicate 9 None)
  ∧ roundNum (reloadPage s) = 0
  ∧ history (reloadPage s) = replicate 9 None.
Proof. by split_and!. Qed.

(** ** [backToState] *)

Lemma play_top_row : play initial [0; 3; 1; 4; 2] = Normal top_row_state.
Proof. reflexivity. Qed.

(** C6. Rewinding to a round [k] in [0,8] whose history slot holds a board
    makes that board the current one, sets the round number to [k], empties
    the history slots [k..8] and leaves the slots below [k] as they were. *)
Theorem backToState_filled_slot (s : state) (k : nat) (b : board) :
  k ≤ 8 →
  history s !! k = Some (Some b) →
  squares (backToState s k) = Some b
  ∧ roundNum (backToState s k) = k
  ∧ (∀ i, k ≤ i ≤ 8 → get (history (backToState s k)) i = None)
  ∧ (∀ i, k ≤ i < length (history s) → history (backToState s k) !! i = Some None)
  ∧ (∀ i, i < k → history (backToState s k) !! i = history s !! i)
  ∧ length (history (backToState s k)) = length (history s).
Proof.
  intros _ Hk. split_and!.
  - simpl. by apply get_lookup.
  - done.
  - intros i [Hi _]. by apply backToState_history_cleared.
  - intros i Hi. rewrite backToState_history_lookup. by rewrite decide_True.
  - intros i Hi. by apply backToState_history_kept.
  - apply backToState_history_length.
Qed.

Lemma backToState_filled_slot_witness :
  squares (backToState top_row_state 2)
  = Some [Some X; None; None; Some O; None; None; None; None; None]
  ∧ roundNum (backToState top_row_state 2) = 2
  ∧ (∀ i, 2 ≤ i ≤ 8 → get (history (backToState top_row_state 2)) i = None)
  ∧ (∀ i, 2 ≤ i < length (history top_row_state) →
       history (backToState top_row_state 2) !! i = Some None)
  ∧ (∀ i, i < 2 →
       history (backToState top_row_state 2) !! i = history top_row_state !! i)
  ∧ length (history (backToState top_row_state 2)) = length (history top_row_state).
Proof.
  apply (backToState_filled_slot top_row_state 2); [lia|reflexivity].
Defined.

(** C2, as the specification words it: rewinding to an empty slot would
    leave the all-empty nine-cell board.  It does not: at the start state
    every slot is empty, and [backToState 0] leaves [squares] holding
    [null], on which the next render throws, where on nine empty squares it
    reports the next player. *)
Lemma rewind_to_empty_slot_is_not_empty_board :
  ¬ (∀ (s : state) (k : nat),
       k ≤ 8 → get (history s) k = None →
       squares (backToState s k) = Some (replicate 9 None)
       ∧ roundNum (backToState s k) = k
       ∧ (∀ i, k ≤ i ≤ 8 → get (history (backToState s k)) i = None)).
Proof.
  intros Hclaim.
  destruct (Hclaim initial 0) as [Hsq _]; [lia|reflexivity|].
  discriminate Hsq.
Qed.

Lemma null_board_not_decoded :
  Game (backToState initial 0) = TypeError
  ∧ status <$> Game initial = Normal "Next player: X".
Proof. split; reflexivity. Qed.

(** C2, amended. Rewinding to a round [k] in [0,8] whose history slot is
    empty stores the slot's own [null] as the board, not an array of nine
    empty squares; the round number becomes [k], the slots [k..8] are
    empty and the slots below [k] are kept.  Nothing decodes the [null]
    board: the next render and every click throw a [TypeError]. *)
Theorem backToState_empty_slot (s : state) (k : nat) :
  k ≤ 8 →
  get (history s) k = None →
  squares (backToState s k) = None
  ∧ roundNum (backToState s k) = k
  ∧ (∀ i, k ≤ i ≤ 8 → get (history (backToState s k)) i = None)
  ∧ (∀ i, i < k → history (backToState s k) !! i = history s !! i)
  ∧ length (history (backToState s k)) = length (history s)
  ∧ Game (backToState s k) = TypeError
  ∧ (∀ index, Clicked (backToState s k) index = TypeError).
Proof.
  intros _ Hk.
  assert (squares (backToState s k) = None) as Hsq by done.
  split_and!.
  - done.
  - done.
  - intros i [Hi _]. by apply backToState_history_cleared.
  - intros i Hi. by apply backToState_history_kept.
  - apply backToState_history_length.
  - unfold Game. by rewrite Hsq.
  - intros index. unfold Clicked. by rewrite Hsq.
Qed.

Lemma backToState_empty_slot_witness :
  squares (backToState initial 3) = None
  ∧ roundNum (backToState initial 3) = 3
  ∧ (∀ i, 3 ≤ i ≤ 8 → get (history (backToState initial 3)) i = None)
  ∧ (∀ i, i < 3 → history (backToState initial 3) !! i = history initial !! i)
  ∧ length (history (backToState initial 3)) = length (history initial)
  ∧ Game (backToState initial 3) = TypeError
  ∧ (∀ index, Clicked (backToState initial 3) index = TypeError).
Proof. apply (backToState_empty_slot initial 3); [lia|reflexivity]. Defined.

(** ** [Clicked] *)

Lemma parity_even (n : nat) : bool_decide (n `mod` 2 = 0) = Nat.even n.
Proof.
  destruct (Nat.even n) eqn:E.
  - apply bool_decide_eq_true_2. apply Nat.even_spec in E as [m ->].
    rewrite Nat.mul_comm. apply Nat.Div0.mod_mul.
  - apply bool_decide_eq_false_2. intros Hmod.
    apply Nat.Div0.mod_divides in Hmod as [m ->].
    by rewrite Nat.even_mul in E.
Qed.

Lemma Clicked_array (s : state) (sq : board) (index : nat) :
  squares s = Some sq →
  Clicked s index =
    Normal (if truthy (get sq index) || truthy (scan_lines sq lines)
            then s else moved s sq index).
Proof.
  intros Hsq. unfold Clicked, moved. rewrite Hsq, calculateWinner_array, parity_even.
  unfold p1, p2. cbn [deref mbind completion_bind mret completion_ret].
  destruct (truthy (get sq index)); [done|].
  by destruct (truthy (scan_lines sq lines)).
Qed.

Lemma Clicked_null (s : state) (index : nat) :
  squares s = None → Clicked s index = TypeError.
Proof. intros Hsq. unfold Clicked. by rewrite Hsq. Qed.

Lemma moved_changes (s : state) (sq : board) (index : nat) : moved s sq index ≠ s.
Proof.
  intros E. apply (f_equal roundNum) in E. simpl in E. lia.
Qed.

Lemma Clicked_inv (s s' : state) (index : nat) :
  Clicked s index = Normal s' →
  ∃ sq, squares s = Some sq
        ∧ (s' = s
           ∨ (get sq index = None ∧ scan_lines sq lines = None
              ∧ s' = moved s sq index)).
Proof.
  destruct (squares s) as [sq|] eqn:Hsq; [|by rewrite Clicked_null].
  rewrite (Clicked_array s sq) by done.
  destruct (get sq index) as [m|] eqn:Hcell,
           (scan_lines sq lines) as [w|] eqn:Hwin;
    cbn [truthy orb]; intros E; injection E as <-;
    exists sq; (split; [done|]); auto.
Qed.

(** C3. In a state whose board has square [index] (in [0,8]) empty and no
    winner, a click on [index] records the board as it was into the history
    slot of the current round, writes X into the square on an even round
    and O on an odd round, and raises the round number by one. *)
Theorem Clicked_plays_move (s : state) (sq : board) (index : nat) :
  index ≤ 8 →
  squares s = Some sq →
  get sq index = None →
  calculateWinner (squares s) = Normal None →
  ∃ s' sq',
    Clicked s index = Normal s'
    ∧ get (history s') (roundNum s) = Some sq
    ∧ squares s' = Some sq'
    ∧ get sq' index = Some (if Nat.even (roundNum s) then X else O)
    ∧ roundNum s' = roundNum s + 1.
Proof.
  intros _ Hsq Hcell Hwin.
  rewrite Hsq in Hwin. apply calculateWinner_array_inv in Hwin.
  eexists (moved s sq index), _. split_and!.
  - rewrite (Clicked_array s sq) by done. by rewrite Hcell, Hwin.
  - simpl. apply get_set_eq.
  - reflexivity.
  - apply get_set_eq.
  - reflexivity.
Qed.

Lemma Clicked_plays_move_witness :
  ∃ s' sq',
    Clicked initial 4 = Normal s'
    ∧ get (history s') (roundNum initial) = Some (replicate 9 None)
    ∧ squares s' = Some sq'
    ∧ get sq' 4 = Some (if Nat.even (roundNum initial) then X else O)
    ∧ roundNum s' = roundNum initial + 1.
Proof.
  apply (Clicked_plays_move initial (replicate 9 None) 4);
    [lia|reflexivity|reflexivity|reflexivity].
Defined.

(** C5. A click on a square in [0,8] that already holds a marker, or on
    any square of a board that has a winner, changes nothing: the handler
    returns normally and board, round number and history are as before. *)
Theorem Clicked_ignored (s : state) (sq : board) (index : nat) :
  index ≤ 8 →
  squares s = Some sq →
  is_Some (get sq index) ∨ (∃ m, calculateWinner (squares s) = Normal (Some m)) →
  Clicked s index = Normal s
  ∧ ∀ s', Clicked s index = Normal s' →
          squares s' = squares s ∧ roundNum s' = roundNum s ∧ history s' = history s.
Proof.
  intros _ Hsq Hguard.
  assert (Clicked s index = Normal s) as Hsame.
  { rewrite (Clicked_array s sq) by done.
    destruct Hguard as [[m Hm]|[m Hm]].
    - by rewrite Hm.
    - rewrite Hsq in Hm. apply calculateWinner_array_inv in Hm.
      rewrite Hm. by rewrite orb_true_r. }
  split; [done|]. intros s' Hs'. rewrite Hsame in Hs'. by injection Hs' as <-.
Qed.

Lemma Clicked_ignored_witness :
  Clicked top_row_state 5 = Normal top_row_state
  ∧ ∀ s', Clicked top_row_state 5 = Normal s' →
          squares s' = squares top_row_state
          ∧ roundNum s' = roundNum top_row_state
          ∧ history s' = history top_row_state.
Proof.
  apply (Clicked_ignored top_row_state
           [Some X; Some X; Some X; Some O; Some O; None; None; None; None] 5);
    [lia|reflexivity|].
  right. exists X. reflexivity.
Defined.

(** C9. A click that is not ignored touches one square and one history
    slot: every square other than [index] reads as before, and every
    history slot other than the one of the current round reads as
    before. *)
Theorem Clicked_frame (s s' : state) (index : nat) :
  Clicked s index = Normal s' →
  s' ≠ s →
  ∃ sq sq',
    squares s = Some sq
    ∧ squares s' = Some sq'
    ∧ (∀ j, j ≠ index → get sq' j = get sq j)
    ∧ (∀ i, i ≠ roundNum s → get (history s') i = get (history s) i).
Proof.
  intros (sq & Hsq & [->|(Hcell & Hwin & ->)])%Clicked_inv Hne; [done|].
  eexists sq, _. split_and!; [done|reflexivity| |].
  - intros j Hj. by apply get_set_ne.
  - intros i Hi. simpl. by apply get_set_ne.
Qed.

Lemma Clicked_frame_witness :
  ∃ sq sq',
    squares (backToState top_row_state 3) = Some sq
    ∧ squares (moved (backToState top_row_state 3)
                 [Some X; Some X; None; Some O; None; None; None; None; None] 8)
      = Some sq'
    ∧ (∀ j, j ≠ 8 → get sq' j = get sq j)
    ∧ (∀ i, i ≠ roundNum (backToState top_row_state 3) →
         get (history (moved (backToState top_row_state 3)
                         [Some X; Some X; None; Some O; None; None; None; None; None] 8)) i
         = get (history (backToState top_row_state 3)) i).
Proof.
  apply (Clicked_frame (backToState top_row_state 3) _ 8).
  - reflexivity.
  - intros E. vm_compute in E. discriminate E.
Defined.

(** ** The invariant of the reachable states *)

Lemma marks_le_length (b : board) : marks b ≤ length b.
Proof. induction b as [|[m|] b IH]; simpl; lia. Qed.

Lemma marks_replicate_None (n : nat) : marks (replicate n None) = 0.
Proof. induction n as [|n IH]; simpl; [done|apply IH]. Qed.

Lemma marks_insert (b : board) : ∀ (i : nat) (m : marker),
  b !! i = Some None → marks (<[i:=Some m]> b) = S (marks b).
Proof.
  induction b as [|c b IH]; intros [|i] m Hi; simpl in *; try done.
  - by injection Hi as ->.
  - rewrite <- Nat.add_succ_r. f_equal. by apply IH.
Qed.

Lemma marks_full (b : board) : ∀ i : nat,
  marks b = length b → i < length b → is_Some (get b i).
Proof.
  induction b as [|c b IH]; intros i Hfull Hi; simpl in *; [lia|].
  pose proof (marks_le_length b) as Hle.
  destruct c as [m|]; simpl in *; [|lia].
  destruct i as [|i]; [by eexists|].
  apply (IH i); lia.
Qed.

Lemma consistent_initial : consistent initial.
Proof.
  split.
  - exists (replicate 9 None). by split_and!.
  - done.
  - intros i b Hi. apply lookup_replicate_1 in Hi as [[=] _].
Qed.

Lemma consistent_reloadPage (s : state) : consistent (reloadPage s).
Proof. apply consistent_initial. Qed.

(** With square [index] empty the board is not full, so the round number
    is a valid history slot. *)
Lemma consistent_room (s : state) (sq : board) (index : nat) :
  consistent s → squares s = Some sq → index < 9 → get sq index = None →
  sq !! index = Some None ∧ roundNum s < 9.
Proof.
  intros [(sq' & Hsq' & Hlen & Hmarks) _ _] Hsq Hindex Hcell.
  rewrite Hsq in Hsq'. injection Hsq' as <-.
  split.
  - destruct (lookup_lt_is_Some_2 sq index) as [c Hc]; [lia|].
    by rewrite <- (get_lookup _ _ _ Hc), Hcell in Hc.
  - pose proof (marks_le_length sq) as Hle.
    destruct (decide (marks sq = length sq)) as [Hfull|]; [|lia].
    destruct (marks_full sq index Hfull) as [m Hm]; [lia|congruence].
Qed.

Lemma consistent_moved (s : state) (sq : board) (index : nat) :
  consistent s → squares s = Some sq → index < 9 → get sq index = None →
  consistent (moved s sq index).
Proof.
  intros Hcons Hsq Hindex Hcell.
  destruct (consistent_room s sq index) as [Hlook Hround]; [done..|].
  destruct Hcons as [(sq' & Hsq' & Hlen & Hmarks) Hhlen Hhist].
  rewrite Hsq in Hsq'. injection Hsq' as <-.
  split; simpl.
  - eexists. split; [done|].
    rewrite set_lt by lia. rewrite length_insert, marks_insert by done.
    split; lia.
  - by rewrite length_set_lt by lia.
  - intros i b. rewrite set_lt by lia.
    destruct (decide (roundNum s = i)) as [<-|Hne].
    + rewrite list_lookup_insert_eq by lia. by intros [= <-].
    + rewrite list_lookup_insert_ne by done. apply Hhist.
Qed.

Lemma consistent_Clicked (s s' : state) (index : nat) :
  consistent s → index < 9 → Clicked s index = Normal s' → consistent s'.
Proof.
  intros Hcons Hindex (sq & Hsq & [->|(Hcell & _ & ->)])%Clicked_inv; [done|].
  by apply consistent_moved.
Qed.

Lemma consistent_backToState (s : state) (k : nat) (b : board) :
  consistent s → history s !! k = Some (Some b) → consistent (backToState s k).
Proof.
  intros [_ Hhlen Hhist] Hk.
  split.
  - exists b. split; [by apply get_lookup|]. by apply Hhist.
  - by rewrite backToState_history_length.
  - intros i b'. rewrite backToState_history_lookup.
    case_decide; [done|]. apply Hhist.
Qed.

Lemma step_consistent (s s' : state) : consistent s → step s s' → consistent s'.
Proof.
  intros Hcons Hstep.
  destruct Hstep as [s index s' Hindex Hclick|s k b Hk|s].
  - by eapply consistent_Clicked.
  - by eapply consistent_backToState.
  - apply consistent_reloadPage.
Qed.

Lemma reachable_consistent (s : state) : reachable s → consistent s.
Proof.
  unfold reachable. revert s.
  apply (rtc_ind_r consistent initial).
  - apply consistent_initial.
  - intros s1 s2 _ Hstep IH. by eapply step_consistent.
Qed.

(** Every state that a sequence of clicks on the nine squares leads to is
    reachable. *)
Lemma reachable_play (moves : list nat) : ∀ s s' : state,
  reachable s → Forall (λ index, index < 9) moves →
  play s moves = Normal s' → reachable s'.
Proof.
  induction moves as [|index moves IH]; intros s s' Hs Hmoves Hplay; simpl in Hplay.
  - by injection Hplay as <-.
  - apply Forall_cons_1 in Hmoves as [Hindex Hmoves].
    destruct (Clicked s index) as [s1|] eqn:Hclick; [|done].
    apply (IH s1 s'); [|done|done].
    eapply rtc_r; [exact Hs|]. by eapply step_click.
Qed.

Lemma reachable_initial : reachable initial.
Proof. apply rtc_refl. Qed.

Lemma play_ninth_move_win :
  play initial [5; 1; 7; 2; 0; 3; 4; 6; 8] = Normal ninth_move_win.
Proof. reflexivity. Qed.

Lemma reachable_top_row_state : reachable top_row_state.
Proof.
  apply (reachable_play [0; 3; 1; 4; 2] initial);
    [apply reachable_initial|repeat constructor; lia|apply play_top_row].
Qed.

Lemma reachable_ninth_move_win : reachable ninth_move_win.
Proof.
  apply (reachable_play [5; 1; 7; 2; 0; 3; 4; 6; 8] initial);
    [apply reachable_initial|repeat constructor; lia|apply play_ninth_move_win].
Qed.

(** C7. In every state reached from the start state by clicks on the nine
    squares, rewinds to filled history slots and resets, the board is an
    array of nine squares of which exactly [roundNum] hold a marker. *)
Theorem reachable_marks_roundNum (s : state) :
  reachable s →
  ∃ sq, squares s = Some sq ∧ length sq = 9 ∧ marks sq = roundNum s.
Proof. intros Hreach. by destruct (reachable_consistent s Hreach). Qed.

Lemma reachable_marks_roundNum_witness :
  ∃ sq, squares (backToState top_row_state 2) = Some sq
        ∧ length sq = 9
        ∧ marks sq = roundNum (backToState top_row_state 2).
Proof.
  apply (reachable_marks_roundNum (backToState top_row_state 2)).
  eapply rtc_r; [apply reachable_top_row_state|].
  eapply step_back. reflexivity.
Defined.

(** C10. In a reachable state with round number 9 the board is full and
    every click on a square in [0,8] is ignored, although [Clicked] never
    looks at the round number.  So whenever a click does write the history,
    the slot written is the round number, it lies in [0,8], inside the nine
    slots, and the history keeps its length.  The round number never
    exceeds 9. *)
Theorem Clicked_history_write_in_range (s : state) :
  reachable s →
  (roundNum s = 9 → ∀ index, index ≤ 8 →
     (∃ sq m, squares s = Some sq ∧ get sq index = Some m)
     ∧ Clicked s index = Normal s)
  ∧ (∀ index s', index ≤ 8 → Clicked s index = Normal s' → s' ≠ s →
       roundNum s ≤ 8
       ∧ roundNum s < length (history s)
       ∧ history s' = <[roundNum s := squares s]> (history s)
       ∧ length (history s') = 9)
  ∧ roundNum s ≤ 9.
Proof.
  intros Hcons%reachable_consistent.
  pose proof Hcons as [(sq & Hsq & Hlen & Hmarks) Hhlen _].
  split_and!.
  - intros Hnine index Hindex.
    rewrite (Clicked_array s sq) by done.
    destruct (marks_full sq index) as [m Hm]; [lia|lia|].
    split; [by exists sq, m|by rewrite Hm].
  - intros index s' Hindex (sq' & Hsq' & [->|(Hcell & _ & ->)])%Clicked_inv Hne;
      [done|].
    rewrite Hsq in Hsq'. injection Hsq' as <-.
    destruct (consistent_room s sq index) as [_ Hround]; [done|done|lia|done|].
    simpl. rewrite set_lt by lia. rewrite length_insert, Hsq.
    split_and!; done || lia.
  - pose proof (marks_le_length sq). lia.
Qed.

Lemma Clicked_history_write_in_range_witness :
  (roundNum ninth_move_win = 9 → ∀ index, index ≤ 8 →
     (∃ sq m, squares ninth_move_win = Some sq ∧ get sq index = Some m)
     ∧ Clicked ninth_move_win index = Normal ninth_move_win)
  ∧ (∀ index s', index ≤ 8 → Clicked ninth_move_win index = Normal s' →
       s' ≠ ninth_move_win →
       roundNum ninth_move_win ≤ 8
       ∧ roundNum ninth_move_win < length (history ninth_move_win)
       ∧ history s' = <[roundNum ninth_move_win := squares ninth_move_win]>
                        (history ninth_move_win)
       ∧ length (history s') = 9)
  ∧ roundNum ninth_move_win ≤ 9.
Proof.
  apply (Clicked_history_write_in_range ninth_move_win).
  apply (reachable_play [5; 1; 7; 2; 0; 3; 4; 6; 8] initial).
  - apply rtc_refl.
  - repeat constructor; lia.
  - reflexivity.
Defined.

(** ** [checkGameOver] *)

(** What [checkGameOver] writes into [status], case by case: the round
    number is tested first, the winner second. *)
Lemma checkGameOver_status (roundNum : nat) (winner : option marker) :
  status (checkGameOver roundNum winner) =
    if decide (9 ≤ roundNum) then "Game Over, it's a draw!"
    else match winner with
         | Some w => "Winner: " +:+ marker_str w
         | None => "Next player: " +:+ (if Nat.even roundNum then "X" else "O")
         end.
Proof.
  unfold checkGameOver. cbn [status]. rewrite parity_even.
  case_bool_decide; case_decide; try lia; [done|].
  destruct winner; [done|]. by destruct (Nat.even roundNum).
Qed.

(** Below round 9 the status is as the specification states it. *)
Lemma Game_status_below_nine (s : state) (sq : board) :
  squares s = Some sq → roundNum s < 9 →
  status <$> Game s = Normal
    match scan_lines sq lines with
    | Some w => "Winner: " +:+ marker_str w
    | None => "Next player: " +:+ (if Nat.even (roundNum s) then "X" else "O")
    end.
Proof.
  intros Hsq Hround. unfold Game. rewrite Hsq, calculateWinner_array.
  cbn [mbind completion_bind mret completion_ret fmap completion_fmap].
  rewrite checkGameOver_status. by rewrite decide_False by lia.
Qed.

(** C1, at the input where the code departs from it. The nine clicks
    5, 1, 7, 2, 0, 3, 4, 6, 8 are all accepted; the last one fills the board
    and completes the diagonal 0, 4, 8 for X.  [calculateWinner] returns X
    on that board, yet the status shown is the draw message and not the
    winner message, because [checkGameOver] tests [roundNum >= 9] before
    it looks at the winner. *)
Theorem ninth_move_win_shown_as_draw :
  play initial [5; 1; 7; 2; 0; 3; 4; 6; 8] = Normal ninth_move_win
  ∧ reachable ninth_move_win
  ∧ roundNum ninth_move_win = 9
  ∧ calculateWinner (squares ninth_move_win) = Normal (Some X)
  ∧ status <$> Game ninth_move_win = Normal "Game Over, it's a draw!"
  ∧ status <$> Game ninth_move_win ≠ Normal ("Winner: " +:+ marker_str X).
Proof.
  split_and!; try reflexivity.
  - apply reachable_ninth_move_win.
  - discriminate.
Qed.

(** * Further properties of the component *)

(** ** The list of moves *)

Lemma moves_lookup (h : list (option board)) (i : nat) :
  moves h !! i
  = (λ state, if truthy state then BackButton i else NoEntry) <$> h !! i.
Proof. unfold moves. apply list_lookup_imap. Qed.

Lemma moves_length (h : list (option board)) : length (moves h) = length h.
Proof. unfold moves. apply length_imap. Qed.

Lemma moves_button (h : list (option board)) (i j : nat) :
  moves h !! i = Some (BackButton j) ↔ j = i ∧ ∃ b, h !! i = Some (Some b).
Proof.
  rewrite moves_lookup. destruct (h !! i) as [[b|]|]; simpl; split.
  - intros [= <-]. eauto.
  - by intros [-> _].
  - done.
  - by intros [_ [b [=]]].
  - done.
  - by intros [_ [b [=]]].
Qed.

Lemma slots_filled_initial : slots_filled initial.
Proof.
  intros i. unfold get. simpl. split; [|lia].
  intros [b Hb]. destruct (fill_null 9 !! i) as [v|] eqn:Hi; [|done].
  apply lookup_replicate_1 in Hi as [-> _]. done.
Qed.

Lemma slots_filled_moved (s : state) (sq : board) (index : nat) :
  slots_filled s → slots_filled (moved s sq index).
Proof.
  intros Hslots i. simpl.
  destruct (decide (roundNum s = i)) as [<-|Hne].
  - rewrite get_set_eq. split; [lia|by eexists].
  - rewrite get_set_ne by done. rewrite (Hslots i). lia.
Qed.

Lemma slots_filled_backToState (s : state) (k : nat) (b : board) :
  slots_filled s → history s !! k = Some (Some b) →
  slots_filled (backToState s k).
Proof.
  intros Hslots Hk i.
  assert (k < roundNum s) as Hlt.
  { apply Hslots. rewrite (get_lookup _ _ _ Hk). by eexists. }
  destruct (decide (k ≤ i)) as [Hge|Hlt'].
  - rewrite backToState_history_cleared by done. simpl. split; [by intros [? ?]|lia].
  - unfold get. rewrite backToState_history_kept by lia.
    fold (get (history s) i). rewrite (Hslots i). simpl. lia.
Qed.

Lemma step_slots_filled (s s' : state) : slots_filled s → step s s' → slots_filled s'.
Proof.
  intros Hslots Hstep.
  destruct Hstep as [s index s' Hindex Hclick|s k b Hk|s].
  - apply Clicked_inv in Hclick as (sq & _ & [->|(_ & _ & ->)]); [done|].
    by apply slots_filled_moved.
  - by eapply slots_filled_backToState.
  - apply slots_filled_initial.
Qed.

Lemma reachable_slots_filled (s : state) : reachable s → slots_filled s.
Proof.
  unfold reachable. revert s. apply (rtc_ind_r slots_filled initial).
  - apply slots_filled_initial.
  - intros s1 s2 _ Hstep IH. by eapply step_slots_filled.
Qed.

(** X2. In every reachable state the list of moves has nine entries: a
    "Back to move i" button for each round [i] below the round number, in
    order, and the empty string for the others. *)
Theorem moves_of_reachable (s : state) :
  reachable s →
  moves (history s)
  = (BackButton <$> seq 0 (roundNum s)) ++ replicate (9 - roundNum s) NoEntry.
Proof.
  intros Hreach.
  pose proof (reachable_slots_filled s Hreach) as Hslots.
  destruct (reachable_consistent s Hreach) as [(sq & _ & Hlen & Hmarks) Hhlen _].
  assert (roundNum s ≤ 9) as Hround.
  { pose proof (marks_le_length sq). lia. }
  apply list_eq. intros i. rewrite moves_lookup.
  destruct (decide (i < roundNum s)) as [Hi|Hi].
  - rewrite lookup_app_l by (rewrite length_fmap, length_seq; lia).
    rewrite list_lookup_fmap, lookup_seq_lt by done. simpl.
    apply Hslots in Hi as [b Hb].
    apply get_Some_lookup in Hb. by rewrite Hb.
  - rewrite lookup_app_r by (rewrite length_fmap, length_seq; lia).
    rewrite length_fmap, length_seq.
    destruct (decide (i < 9)) as [Hi9|Hi9].
    + rewrite lookup_replicate_2 by lia.
      destruct (lookup_lt_is_Some_2 (history s) i) as [v Hv]; [lia|].
      rewrite Hv. simpl. destruct v as [b|]; [|done].
      destruct Hi. apply Hslots. rewrite (get_lookup _ _ _ Hv). by eexists.
    + rewrite (lookup_ge_None_2 (history s)) by lia.
      rewrite lookup_ge_None_2; [done|]. rewrite length_replicate. lia.
Qed.

Lemma moves_of_reachable_witness :
  moves (history (backToState top_row_state 2))
  = (BackButton <$> seq 0 (roundNum (backToState top_row_state 2)))
    ++ replicate (9 - roundNum (backToState top_row_state 2)) NoEntry.
Proof.
  apply (moves_of_reachable (backToState top_row_state 2)).
  eapply rtc_r; [apply reachable_top_row_state|].
  eapply step_back. reflexivity.
Defined.

(** X5. Whatever the state, after [backToState k] the list of moves keeps
    its length, shows below [k] what it showed before, and shows no button
    from [k] on. *)
Theorem moves_after_backToState (s : state) (k : nat) :
  length (moves (history (backToState s k))) = length (moves (history s))
  ∧ (∀ i, i < k →
       moves (history (backToState s k)) !! i = moves (history s) !! i)
  ∧ (∀ i j, k ≤ i → moves (history (backToState s k)) !! i ≠ Some (BackButton j)).
Proof.
  split_and!.
  - by rewrite !moves_length, backToState_history_length.
  - intros i Hi. by rewrite !moves_lookup, backToState_history_kept.
  - intros i j Hi (_ & b & Hb)%moves_button.
    rewrite backToState_history_lookup in Hb. case_decide as Hrange; [done|].
    apply lookup_lt_Some in Hb. lia.
Qed.

(** ** Rendering *)

Lemma renderRowFrom_array (sq : board) (startIndex : nat) :
  renderRowFrom (Some sq) startIndex
  = Normal [ Square (get sq startIndex) startIndex;
             Square (get sq (startIndex + 1)) (startIndex + 1);
             Square (get sq (startIndex + 2)) (startIndex + 2) ].
Proof.
  unfold renderRowFrom, push_squares, renderSquare.
  cbn [deref mbind completion_bind mret completion_ret app].
  by rewrite Nat.add_0_r.
Qed.

Lemma Game_array (s : state) (sq : board) :
  squares s = Some sq →
  Game s = Normal (checkGameOver (roundNum s) (scan_lines sq lines)).
Proof. intros Hsq. unfold Game. by rewrite Hsq, calculateWinner_array. Qed.

Lemma Game_render_array (s : state) (sq : board) :
  squares s = Some sq →
  Game_render s = Normal
    {| page_view := checkGameOver (roundNum s) (scan_lines sq lines);
       page_rows :=
         [ [Square (get sq 0) 0; Square (get sq 1) 1; Square (get sq 2) 2];
           [Square (get sq 3) 3; Square (get sq 4) 4; Square (get sq 5) 5];
           [Square (get sq 6) 6; Square (get sq 7) 7; Square (get sq 8) 8] ];
       page_moves := moves (history s) |}.
Proof.
  intros Hsq. unfold Game_render.
  rewrite (Game_array s sq Hsq), Hsq, !renderRowFrom_array. reflexivity.
Qed.

(** X1. In a reachable state [squares] is never [null]: rendering the
    page and clicking any square complete without a [TypeError]. *)
Theorem reachable_never_throws (s : state) :
  reachable s →
  (∃ p, Game_render s = Normal p)
  ∧ (∀ index, ∃ s', Clicked s index = Normal s').
Proof.
  intros [(sq & Hsq & _ & _) _ _]%reachable_consistent. split.
  - rewrite (Game_render_array s sq Hsq). by eexists.
  - intros index. rewrite (Clicked_array s sq index Hsq). by eexists.
Qed.

Lemma reachable_never_throws_witness :
  (∃ p, Game_render ninth_move_win = Normal p)
  ∧ (∀ index, ∃ s', Clicked ninth_move_win index = Normal s').
Proof.
  apply (reachable_never_throws ninth_move_win).
  apply (reachable_play [5; 1; 7; 2; 0; 3; 4; 6; 8] initial).
  - apply rtc_refl.
  - repeat constructor; lia.
  - reflexivity.
Defined.

(** X10. On a board of nine squares the page shows three rows of three
    buttons; read row by row they show the squares of the board in order,
    and the button at position [i] clicks square [i]. *)
Theorem Game_render_rows (s : state) (sq : board) :
  squares s = Some sq →
  length sq = 9 →
  ∃ p, Game_render s = Normal p
       ∧ length (page_rows p) = 3
       ∧ Forall (λ row, length row = 3) (page_rows p)
       ∧ shown <$> concat (page_rows p) = sq
       ∧ onClick <$> concat (page_rows p) = seq 0 9.
Proof.
  intros Hsq Hlen. eexists. split; [by apply Game_render_array|].
  do 9 (destruct sq as [|? sq]; [done|]). destruct sq; [|done].
  cbn [page_rows]. split_and!; [done|by repeat constructor|done|done].
Qed.

Lemma Game_render_rows_witness :
  ∃ p, Game_render top_row_state = Normal p
       ∧ length (page_rows p) = 3
       ∧ Forall (λ row, length row = 3) (page_rows p)
       ∧ shown <$> concat (page_rows p)
         = [Some X; Some X; Some X; Some O; Some O; None; None; None; None]
       ∧ onClick <$> concat (page_rows p) = seq 0 9.
Proof.
  apply (Game_render_rows top_row_state); reflexivity.
Defined.

(** ** The "Again?" button *)

Lemma marks_room (b : board) :
  marks b < length b → ∃ i, i < length b ∧ get b i = None.
Proof.
  induction b as [|c b IH]; simpl; [lia|].
  destruct c as [m|]; simpl.
  - intros Hlt. destruct IH as (i & Hi & Hget); [lia|].
    exists (S i). split; [lia|done].
  - intros _. exists 0. split; [lia|done].
Qed.

(** X3. In a reachable state the "Again?" button is shown exactly when the
    game accepts no further move, that is when every click on one of the
    nine squares is ignored. *)
Theorem again_button_iff_no_move (s : state) :
  reachable s →
  ∃ v, Game s = Normal v
       ∧ (againContent v = true ↔ ∀ index, index < 9 → Clicked s index = Normal s).
Proof.
  intros [(sq & Hsq & Hlen & Hmarks) _ _]%reachable_consistent.
  eexists. split; [by apply Game_array|].
  cbn [againContent checkGameOver]. split.
  - intros Hover index Hindex. rewrite (Clicked_array s sq index Hsq).
    apply orb_prop in Hover as [Hnine%bool_decide_eq_true|Hwin].
    + destruct (marks_full sq index) as [m ->]; [|lia|done].
      pose proof (marks_le_length sq). lia.
    + by rewrite Hwin, orb_true_r.
  - intros Hignored.
    destruct (bool_decide (9 ≤ roundNum s)) eqn:Hnine; [done|].
    apply bool_decide_eq_false in Hnine.
    destruct (scan_lines sq lines) as [w|] eqn:Hwin; [done|].
    destruct (marks_room sq) as (i & Hi & Hget); [lia|].
    specialize (Hignored i ltac:(lia)).
    rewrite (Clicked_array s sq i Hsq), Hget, Hwin in Hignored.
    cbn [truthy orb] in Hignored. injection Hignored as Hsame.
    by destruct (moved_changes s sq i).
Qed.

Lemma again_button_iff_no_move_witness :
  ∃ v, Game top_row_state = Normal v
       ∧ (againContent v = true
          ↔ ∀ index, index < 9 → Clicked top_row_state index = Normal top_row_state).
Proof.
  apply (again_button_iff_no_move top_row_state).
  apply (reachable_play [0; 3; 1; 4; 2] initial).
  - apply rtc_refl.
  - repeat constructor; lia.
  - reflexivity.
Defined.

(** ** Clicks never take a marker back *)




(** X11. In a reachable state, when a click on one of the nine squares is
    accepted, the marker it writes is the one the status line announced as
    the next player. *)
Theorem Clicked_writes_announced_player (s s' : state) (index : nat) :
  reachable s →
  index < 9 →
  Clicked s index = Normal s' →
  s' ≠ s →
  ∃ (m : marker) (sq' : board),
    status <$> Game s = Normal ("Next player: " +:+ marker_str m)
    ∧ squares s' = Some sq'
    ∧ get sq' index = Some m.
Proof.
  intros Hcons%reachable_consistent Hindex
    (sq & Hsq & [->|(Hcell & Hwin & ->)])%Clicked_inv Hne; [done|].
  destruct (consistent_room s sq index) as [_ Hround]; [done..|].
  exists (if Nat.even (roundNum s) then X else O). eexists. split_and!.
  - rewrite (Game_status_below_nine s sq) by done. rewrite Hwin.
    by destruct (Nat.even (roundNum s)).
  - reflexivity.
  - apply get_set_eq.
Qed.

Lemma Clicked_writes_announced_player_witness :
  ∃ (m : marker) (sq' : board),
    status <$> Game initial = Normal ("Next player: " +:+ marker_str m)
    ∧ squares (moved initial (fill_null 9) 4) = Some sq'
    ∧ get sq' 4 = Some m.
Proof.
  apply (Clicked_writes_announced_player initial (moved initial (fill_null 9) 4) 4).
  - apply rtc_refl.
  - lia.
  - reflexivity.
  - intros E. vm_compute in E. discriminate E.
Defined.

(** ** Undoing moves *)

Lemma continues_refl (s : state) : continues s s.
Proof. split_and!; done || lia. Qed.

Lemma continues_Clicked (s s1 s2 : state) (index : nat) :
  consistent s1 → index < 9 →
  continues s s1 → Clicked s1 index = Normal s2 → continues s s2.
Proof.
  intros Hcons Hindex Hcont (sq1 & Hsq1 & [->|(Hcell & _ & ->)])%Clicked_inv;
    [done|].
  destruct (consistent_room s1 sq1 index) as [_ Hround]; [done..|].
  destruct Hcons as [_ Hhlen _].
  destruct Hcont as (Hle & Hbelow & Hat & Hsame).
  split_and!; simpl.
  - lia.
  - intros j Hj. rewrite set_lt by lia.
    rewrite list_lookup_insert_ne by lia. by apply Hbelow.
  - intros _. rewrite set_lt by lia.
    destruct (decide (roundNum s1 = roundNum s)) as [Heq|Hne].
    + rewrite (Hsame Heq) in *. rewrite list_lookup_insert_eq by lia.
      by rewrite Hsq1.
    + rewrite list_lookup_insert_ne by done. apply Hat. lia.
  - lia.
Qed.

Lemma continues_play (s : state) (clicks : list nat) : ∀ s1 s' : state,
  reachable s1 → continues s s1 → Forall (λ index, index < 9) clicks →
  play s1 clicks = Normal s' → continues s s'.
Proof.
  induction clicks as [|index clicks IH]; intros s1 s' Hreach Hcont Hall Hplay;
    simpl in Hplay.
  - by injection Hplay as <-.
  - apply Forall_cons_1 in Hall as [Hindex Hall].
    destruct (Clicked s1 index) as [s2|] eqn:Hclick; [|done].
    apply (IH s2 s'); [|by eapply continues_Clicked, Hclick;
                          [apply reachable_consistent|..]|done|done].
    eapply rtc_r; [exact Hreach|]. by eapply step_click.
Qed.

(** X4. Time travel undoes moves exactly.  From a reachable state [s],
    after any clicks on the nine squares that changed the state, the list
    of moves has a button for the round of [s], and [backToState] to that
    round gives back [s] itself: board, round number and history. *)
Theorem backToState_undoes_play (s s' : state) (clicks : list nat) :
  reachable s →
  Forall (λ index, index < 9) clicks →
  play s clicks = Normal s' →
  s' ≠ s →
  moves (history s') !! roundNum s = Some (BackButton (roundNum s))
  ∧ backToState s' (roundNum s) = s.
Proof.
  intros Hreach Hall Hplay Hne.
  pose proof (continues_play s clicks s s' Hreach (continues_refl s) Hall Hplay)
    as (Hle & Hbelow & Hat & Hsame).
  assert (roundNum s < roundNum s') as Hlt.
  { destruct (decide (roundNum s' = roundNum s)) as [Heq|]; [|lia].
    by destruct Hne, Hsame. }
  specialize (Hat Hlt).
  destruct (reachable_consistent s Hreach) as [(sq & Hsq & _ & _) Hhlen _].
  pose proof (reachable_slots_filled s Hreach) as Hslots.
  assert (reachable s') as Hreach' by (by eapply reachable_play).
  destruct (reachable_consistent s' Hreach') as [_ Hhlen' _].
  split.
  - apply moves_button. split; [done|]. exists sq. by rewrite Hat, Hsq.
  - destruct s as [rn sqs h]. simpl in *. unfold backToState. f_equal.
    + simpl. by apply get_lookup.
    + apply list_eq. intros j.
      change (history (backToState s' rn) !! j = h !! j).
      rewrite backToState_history_lookup. case_decide as Hj.
      * destruct (lookup_lt_is_Some_2 h j) as [v Hv]; [lia|].
        rewrite Hv. destruct v as [b|]; [|done].
        assert (j < rn); [|lia].
        apply Hslots. simpl. rewrite (get_lookup _ _ _ Hv). by eexists.
      * destruct (decide (j < rn)) as [Hjr|Hjr]; [by apply Hbelow|].
        by rewrite !lookup_ge_None_2 by lia.
Qed.

Lemma backToState_undoes_play_witness :
  moves (history top_row_state) !! roundNum (backToState top_row_state 2)
  = Some (BackButton (roundNum (backToState top_row_state 2)))
  ∧ backToState top_row_state (roundNum (backToState top_row_state 2))
    = backToState top_row_state 2.
Proof.
  apply (backToState_undoes_play (backToState top_row_state 2) top_row_state [1; 4; 2]).
  - eapply rtc_r; [apply reachable_top_row_state|].
    eapply step_back. reflexivity.
  - repeat constructor; lia.
  - reflexivity.
  - intros E. vm_compute in E. discriminate E.
Defined.

(** ** Alternation of the two players *)

Lemma count_of_insert (m m' : marker) (b : board) : ∀ i : nat,
  b !! i = Some None →
  count_of m (<[i:=Some m']> b)
  = count_of m b + (if bool_decide (m' = m) then 1 else 0).
Proof.
  induction b as [|c b IH]; intros [|i] Hi; simpl in *; try done.
  - injection Hi as ->. rewrite (bool_decide_eq_false_2 (None = Some m)) by done.
    destruct (decide (m' = m)) as [->|Hne].
    + rewrite !bool_decide_eq_true_2 by done. lia.
    + rewrite !bool_decide_eq_false_2 by congruence. lia.
  - rewrite <- Nat.add_assoc. f_equal. by apply IH.
Qed.

Lemma count_of_remove (m : marker) (b : board) : ∀ i : nat,
  b !! i = Some (Some m) → count_of m b = S (count_of m (<[i:=None]> b)).
Proof.
  induction b as [|c b IH]; intros [|i] Hi; simpl in *; try done.
  - injection Hi as ->. by rewrite bool_decide_eq_true_2 by done.
  - rewrite <- Nat.add_succ_r. f_equal. by apply IH.
Qed.

Lemma triple_count (sq : board) (t : nat * nat * nat) (m : marker) :
  t.1.1 ≠ t.1.2 → t.1.1 ≠ t.2 → t.1.2 ≠ t.2 →
  triple_of sq t m → 3 ≤ count_of m sq.
Proof.
  destruct t as [[a b] c]. simpl.
  intros Hab Hac Hbc (Ha%get_Some_lookup & Hb%get_Some_lookup & Hc%get_Some_lookup).
  simpl in *.
  rewrite (count_of_remove m sq a) by done.
  rewrite (count_of_remove m _ b) by (by rewrite list_lookup_insert_ne).
  rewrite (count_of_remove m _ c) by (by rewrite !list_lookup_insert_ne).
  lia.
Qed.

Lemma lines_distinct (t : nat * nat * nat) :
  t ∈ lines → t.1.1 ≠ t.1.2 ∧ t.1.1 ≠ t.2 ∧ t.1.2 ≠ t.2.
Proof.
  unfold lines. intros Ht.
  repeat (apply elem_of_cons in Ht as [->|Ht]; [simpl; lia|]).
  by apply elem_of_nil in Ht.
Qed.

Lemma balanced_move (n : nat) (sq : board) (index : nat) :
  sq !! index = Some None → balanced n sq →
  balanced (n + 1) (<[index:=Some (if Nat.even n then X else O)]> sq).
Proof.
  intros Hlook [Hsum Hdiff]. unfold balanced.
  rewrite !count_of_insert by done.
  rewrite Nat.add_1_r, Nat.even_succ, <- Nat.negb_even.
  destruct (Nat.even n); simpl;
    rewrite ?bool_decide_eq_true_2, ?(bool_decide_eq_false_2 (X = O)),
      ?(bool_decide_eq_false_2 (O = X)) by done; lia.
Qed.

Lemma balanced_counts (n : nat) (b : board) :
  balanced n b → count_of X b = (n + 1) / 2 ∧ count_of O b = n / 2.
Proof.
  intros [Hsum Hdiff].
  destruct (Nat.even n) eqn:Heven.
  - apply Nat.even_spec in Heven as [k ->].
    replace (2 * k + 1) with (1 + k * 2) by lia.
    rewrite Nat.div_add by done. rewrite (Nat.mul_comm 2 k), Nat.div_mul by done.
    simpl. lia.
  - assert (Nat.odd n = true) as [k ->]%Nat.odd_spec
      by (by rewrite <- Nat.negb_even, Heven).
    replace (2 * k + 1 + 1) with ((k + 1) * 2) by lia.
    replace (2 * k + 1) with (1 + k * 2) by lia.
    rewrite Nat.div_mul, Nat.div_add by done. simpl. lia.
Qed.

Lemma counts_balanced_initial : counts_balanced initial.
Proof.
  split.
  - intros sq [= <-]. by split.
  - intros i b Hi. apply get_Some_lookup in Hi.
    by apply lookup_replicate_1 in Hi as [[=] _].
Qed.

Lemma counts_balanced_moved (s : state) (sq : board) (index : nat) :
  consistent s → squares s = Some sq → index < 9 → get sq index = None →
  counts_balanced s → counts_balanced (moved s sq index).
Proof.
  intros Hcons Hsq Hindex Hcell [Hcur Hhist].
  destruct (consistent_room s sq index) as [Hlook _]; [done..|].
  split; simpl.
  - intros sq' [= <-]. rewrite set_lt by (by eapply lookup_lt_Some).
    apply balanced_move; [done|]. by apply Hcur.
  - intros i b. destruct (decide (roundNum s = i)) as [<-|Hne].
    + rewrite get_set_eq. intros [= <-]. by apply Hcur.
    + rewrite get_set_ne by done. apply Hhist.
Qed.

Lemma backToState_get_history (s : state) (k i : nat) (b : board) :
  get (history (backToState s k)) i = Some b → get (history s) i = Some b.
Proof.
  intros Hi. destruct (decide (k ≤ i)) as [Hge|Hlt].
  - by rewrite backToState_history_cleared in Hi.
  - unfold get in *. by rewrite backToState_history_kept in Hi by lia.
Qed.

Lemma counts_balanced_backToState (s : state) (k : nat) (b : board) :
  history s !! k = Some (Some b) →
  counts_balanced s → counts_balanced (backToState s k).
Proof.
  intros Hk [_ Hhist]. split.
  - intros sq Hsq. apply Hhist. exact Hsq.
  - intros i b' Hi%backToState_get_history. by apply Hhist.
Qed.

Lemma reachable_counts_balanced (s : state) : reachable s → counts_balanced s.
Proof.
  unfold reachable. revert s. apply (rtc_ind_r counts_balanced initial).
  - apply counts_balanced_initial.
  - intros s1 s2 Hreach Hstep IH.
    destruct Hstep as [s index s' Hindex Hclick|s k b Hk|s].
    + apply Clicked_inv in Hclick as (sq & Hsq & [->|(Hcell & _ & ->)]); [done|].
      apply counts_balanced_moved; try done. by apply reachable_consistent.
    + by eapply counts_balanced_backToState.
    + apply counts_balanced_initial.
Qed.

(** X7. The players alternate, also across rewinds and resets: in every
    reachable state the board holds [(roundNum + 1) / 2] markers X and
    [roundNum / 2] markers O. *)
Theorem reachable_marker_counts (s : state) :
  reachable s →
  ∃ sq, squares s = Some sq
        ∧ count_of X sq = (roundNum s + 1) / 2
        ∧ count_of O sq = roundNum s / 2.
Proof.
  intros Hreach.
  destruct (reachable_consistent s Hreach) as [(sq & Hsq & _ & _) _ _].
  destruct (reachable_counts_balanced s Hreach) as [Hcur _].
  exists sq. split; [done|]. by apply balanced_counts, Hcur.
Qed.

Lemma reachable_marker_counts_witness :
  ∃ sq, squares (backToState top_row_state 3) = Some sq
        ∧ count_of X sq = (roundNum (backToState top_row_state 3) + 1) / 2
        ∧ count_of O sq = roundNum (backToState top_row_state 3) / 2.
Proof.
  apply (reachable_marker_counts (backToState top_row_state 3)).
  eapply rtc_r; [apply reachable_top_row_state|].
  eapply step_back. reflexivity.
Defined.

(** ** Who wins, and when *)

Lemma scan_lines_triple (sq : board) (m : marker) :
  scan_lines sq lines = Some m → ∃ t, t ∈ lines ∧ triple_of sq t m.
Proof.
  intros (pre & t & post & Hsplit & Ht & _)%scan_lines_Some.
  exists t. split; [|done]. rewrite Hsplit. set_solver.
Qed.

Lemma scan_lines_no_triple (sq : board) (t : nat * nat * nat) (m : marker) :
  scan_lines sq lines = None → t ∈ lines → ¬ triple_of sq t m.
Proof.
  intros Hnone%scan_lines_None Ht.
  by apply (proj1 (Forall_forall _ _) Hnone t Ht m).
Qed.

(** A line that is complete after a write of [p] and holds another marker
    was complete before. *)
Lemma triple_of_set_other (sq : board) (index : nat) (p m : marker)
    (t : nat * nat * nat) :
  m ≠ p → triple_of (set sq index (Some p)) t m → triple_of sq t m.
Proof.
  intros Hne (Ha & Hb & Hc).
  assert (∀ j, get (set sq index (Some p)) j = Some m → get sq j = Some m) as Hold.
  { intros j Hj. destruct (decide (index = j)) as [->|Hij].
    - rewrite get_set_eq in Hj. congruence.
    - by rewrite get_set_ne in Hj. }
  split_and!; by apply Hold.
Qed.

Lemma winner_moved_last_initial : winner_moved_last initial.
Proof.
  split.
  - intros i b Hi%get_Some_lookup.
    by apply lookup_replicate_1 in Hi as [[=] _].
  - intros sq t m [= <-] _ [Ha%get_Some_lookup _].
    by apply lookup_replicate_1 in Ha as [[=] _].
Qed.

Lemma winner_moved_last_moved (s : state) (sq : board) (index : nat) :
  scan_lines sq lines = None →
  winner_moved_last s → winner_moved_last (moved s sq index).
Proof.
  intros Hnone [Hhist _]. split; simpl.
  - intros i b. destruct (decide (roundNum s = i)) as [<-|Hne].
    + rewrite get_set_eq. by intros [= <-].
    + rewrite get_set_ne by done. apply Hhist.
  - intros sq' t m [= <-] Ht Htriple. split; [lia|].
    rewrite Nat.add_sub. unfold mover.
    destruct (decide (m = if Nat.even (roundNum s) then X else O)) as [|Hne];
      [done|].
    apply triple_of_set_other in Htriple; [|done].
    by destruct (scan_lines_no_triple sq t m).
Qed.

Lemma winner_moved_last_backToState (s : state) (k : nat) (b : board) :
  history s !! k = Some (Some b) →
  winner_moved_last s → winner_moved_last (backToState s k).
Proof.
  intros Hk [Hhist _]. split.
  - intros i b' Hi%backToState_get_history. by eapply Hhist.
  - intros sq t m Hsq Ht Htriple. simpl in Hsq.
    by destruct (scan_lines_no_triple sq t m); [eapply Hhist|..].
Qed.

Lemma reachable_winner_moved_last (s : state) : reachable s → winner_moved_last s.
Proof.
  unfold reachable. revert s. apply (rtc_ind_r winner_moved_last initial).
  - apply winner_moved_last_initial.
  - intros s1 s2 _ Hstep IH.
    destruct Hstep as [s index s' Hindex Hclick|s k b Hk|s].
    + apply Clicked_inv in Hclick as (sq & Hsq & [->|(_ & Hnone & ->)]); [done|].
      by apply winner_moved_last_moved.
    + by eapply winner_moved_last_backToState.
    + apply winner_moved_last_initial.
Qed.

(** X8. In a reachable state a winner, when [calculateWinner] finds one,
    is the player who made the last move: at least one move was made, and
    the winner is X when the round number is odd and O when it is even.  So
    the two players never both hold a complete line. *)
Theorem reachable_winner_moved_last_move (s : state) (m : marker) :
  reachable s →
  calculateWinner (squares s) = Normal (Some m) →
  0 < roundNum s
  ∧ m = (if Nat.odd (roundNum s) then X else O)
  ∧ ∀ sq t m', squares s = Some sq → t ∈ lines → triple_of sq t m' → m' = m.
Proof.
  intros Hreach Hwin.
  destruct (reachable_consistent s Hreach) as [(sq & Hsq & _ & _) _ _].
  destruct (reachable_winner_moved_last s Hreach) as [_ Hlast].
  rewrite Hsq in Hwin. apply calculateWinner_array_inv in Hwin.
  destruct (scan_lines_triple sq m Hwin) as (t & Ht & Htriple).
  destruct (Hlast sq t m Hsq Ht Htriple) as [Hpos ->].
  assert (mover (roundNum s - 1) = if Nat.odd (roundNum s) then X else O) as Hmover.
  { unfold mover. destruct (roundNum s) as [|n]; [lia|].
    rewrite Nat.odd_succ. simpl. by rewrite Nat.sub_0_r. }
  split_and!; [done|done|].
  intros sq' t' m' Hsq' Ht' Htriple'.
  by destruct (Hlast sq' t' m' Hsq' Ht' Htriple') as [_ ->].
Qed.

Lemma reachable_winner_moved_last_move_witness :
  0 < roundNum top_row_state
  ∧ X = (if Nat.odd (roundNum top_row_state) then X else O)
  ∧ ∀ sq t m', squares top_row_state = Some sq → t ∈ lines →
               triple_of sq t m' → m' = X.
Proof.
  apply (reachable_winner_moved_last_move top_row_state X).
  - apply (reachable_play [0; 3; 1; 4; 2] initial).
    + apply rtc_refl.
    + repeat constructor; lia.
    + reflexivity.
  - reflexivity.
Defined.

(** X9. Nobody wins early: in a reachable state X is the winner only from
    round 5 on and O only from round 6 on. *)
Theorem reachable_winner_round (s : state) (m : marker) :
  reachable s →
  calculateWinner (squares s) = Normal (Some m) →
  (if bool_decide (m = X) then 5 else 6) ≤ roundNum s.
Proof.
  intros Hreach Hwin.
  destruct (reachable_consistent s Hreach) as [(sq & Hsq & _ & _) _ _].
  destruct (reachable_counts_balanced s Hreach) as [Hcur _].
  destruct (Hcur sq Hsq) as [Hsum Hdiff].
  rewrite Hsq in Hwin. apply calculateWinner_array_inv in Hwin.
  destruct (scan_lines_triple sq m Hwin) as (t & Ht & Htriple).
  destruct (lines_distinct t Ht) as (Hab & Hac & Hbc).
  pose proof (triple_count sq t m Hab Hac Hbc Htriple) as Hcount.
  destruct m; simpl; destruct (Nat.even (roundNum s)); lia.
Qed.

Lemma reachable_winner_round_witness :
  (if bool_decide (X = X) then 5 else 6) ≤ roundNum top_row_state.
Proof.
  apply (reachable_winner_round top_row_state X).
  - apply (reachable_play [0; 3; 1; 4; 2] initial).
    + apply rtc_refl.
    + repeat constructor; lia.
    + reflexivity.
  - reflexivity.
Defined.

(** ** What a rewind leads to *)

(** X12. In a reachable state every "Back to move k" button leads to a
    position in which the game goes on: the board taken from the history has
    no winner, the status line names the player of round [k] as the next
    player and the "Again?" button is not shown. *)
Theorem backToState_game_goes_on (s : state) (k : nat) (b : board) :
  reachable s →
  history s !! k = Some (Some b) →
  k < roundNum s
  ∧ calculateWinner (squares (backToState s k)) = Normal None
  ∧ Game (backToState s k) = Normal
      {| status := "Next player: " +:+ marker_str (mover k);
         againContent := false |}.
Proof.
  intros Hreach Hk.
  destruct (reachable_consistent s Hreach) as [(sq & _ & Hlen & Hmarks) _ _].
  destruct (reachable_winner_moved_last s Hreach) as [Hhist _].
  assert (k < roundNum s) as Hlt.
  { apply (reachable_slots_filled s Hreach).
    rewrite (get_lookup _ _ _ Hk). by eexists. }
  assert (roundNum s ≤ 9) by (pose proof (marks_le_length sq); lia).
  assert (squares (backToState s k) = Some b) as Hsq by (by apply get_lookup).
  assert (scan_lines b lines = None) as Hnone
    by (by apply (Hhist k), get_lookup).
  split_and!.
  - done.
  - by rewrite Hsq, calculateWinner_array, Hnone.
  - rewrite (Game_array _ b Hsq), Hnone. unfold checkGameOver.
    cbn [roundNum backToState truthy]. rewrite parity_even.
    rewrite bool_decide_eq_false_2 by lia. reflexivity.
Qed.

Lemma backToState_game_goes_on_witness :
  3 < roundNum top_row_state
  ∧ calculateWinner (squares (backToState top_row_state 3)) = Normal None
  ∧ Game (backToState top_row_state 3) = Normal
      {| status := "Next player: " +:+ marker_str (mover 3);
         againContent := false |}.
Proof.
  apply (backToState_game_goes_on top_row_state 3
           [Some X; Some X; None; Some O; None; None; None; None; None]).
  - apply (reachable_play [0; 3; 1; 4; 2] initial).
    + apply rtc_refl.
    + repeat constructor; lia.
    + reflexivity.
  - reflexivity.
Defined.

(** X14. In a reachable state the board recorded in history slot [i] has
    nine squares and exactly [i] markers, X and O in alternation, and no
    complete line. *)
Theorem reachable_history_snapshot (s : state) (i : nat) (b : board) :
  reachable s →
  history s !! i = Some (Some b) →
  length b = 9
  ∧ marks b = i
  ∧ count_of X b = (i + 1) / 2
  ∧ count_of O b = i / 2
  ∧ calculateWinner (Some b) = Normal None.
Proof.
  intros Hreach Hi.
  destruct (reachable_consistent s Hreach) as [_ _ Hsnap].
  destruct (Hsnap i b Hi) as [Hlen Hmarks].
  destruct (reachable_counts_balanced s Hreach) as [_ Hbal].
  destruct (reachable_winner_moved_last s Hreach) as [Hnone _].
  destruct (balanced_counts i b) as [HX HO]; [by apply Hbal, get_lookup|].
  split_and!; try done.
  rewrite calculateWinner_array. f_equal. by apply (Hnone i), get_lookup.
Qed.

Lemma reachable_history_snapshot_witness :
  length [Some X; Some X; None; Some O; None; None; None; None; None] = 9
  ∧ marks [Some X; Some X; None; Some O; None; None; None; None; None] = 3
  ∧ count_of X [Some X; Some X; None; Some O; None; None; None; None; None]
    = (3 + 1) / 2
  ∧ count_of O [Some X; Some X; None; Some O; None; None; None; None; None]
    = 3 / 2
  ∧ calculateWinner
      (Some [Some X; Some X; None; Some O; None; None; None; None; None])
    = Normal None.
Proof.
  apply (reachable_history_snapshot top_row_state 3).
  - apply (reachable_play [0; 3; 1; 4; 2] initial).
    + apply rtc_refl.
    + repeat constructor; lia.
    + reflexivity.
  - reflexivity.
Defined.

(** ** The draw message *)

Lemma marks_all (b : board) :
  (∀ i, i < length b → is_Some (get b i)) → marks b = length b.
Proof.
  induction b as [|c b IH]; simpl; [done|]. intros Hall.
  destruct (Hall 0 ltac:(lia)) as [m Hm]. unfold get in Hm. simpl in Hm. subst c.
  simpl. f_equal. apply IH. intros i Hi. apply (Hall (S i)). lia.
Qed.

(** X13. In a reachable state the status line reads "Game Over, it's a
    draw!" exactly when all nine squares hold a marker. *)
Theorem draw_status_iff_board_full (s : state) :
  reachable s →
  ∃ sq, squares s = Some sq
        ∧ (status <$> Game s = Normal "Game Over, it's a draw!"
           ↔ ∀ index, index < 9 → is_Some (get sq index)).
Proof.
  intros [(sq & Hsq & Hlen & Hmarks) _ _]%reachable_consistent.
  exists sq. split; [done|].
  rewrite (Game_array s sq Hsq).
  cbn [fmap completion_fmap]. rewrite checkGameOver_status.
  pose proof (marks_le_length sq) as Hle.
  case_decide as Hnine; split.
  - intros _ index Hindex. apply marks_full; lia.
  - done.
  - intros Hdraw. exfalso.
    destruct (scan_lines sq lines) as [[|]|], (Nat.even (roundNum s));
      discriminate Hdraw.
  - intros Hfull. rewrite marks_all in Hmarks by (by rewrite Hlen). lia.
Qed.

Lemma draw_status_iff_board_full_witness :
  ∃ sq, squares ninth_move_win = Some sq
        ∧ (status <$> Game ninth_move_win = Normal "Game Over, it's a draw!"
           ↔ ∀ index, index < 9 → is_Some (get sq index)).
Proof.
  apply (draw_status_iff_board_full ninth_move_win).
  apply (reachable_play [5; 1; 7; 2; 0; 3; 4; 6; 8] initial).
  - apply rtc_refl.
  - repeat constructor; lia.
  - reflexivity.
Defined.

(** ** Rewinding twice *)

(** X15. [backToState] empties the slot it rewinds to, so a second
    [backToState] to the same round, in whatever state, finds no board:
    [squares] becomes [null] and the next render throws. *)
Theorem backToState_twice_null (s : state) (k : nat) :
  get (history (backToState s k)) k = None
  ∧ squares (backToState (backToState s k) k) = None
  ∧ Game_render (backToState (backToState s k) k) = TypeError.
Proof.
  assert (get (history (backToState s k)) k = None) as Hslot
    by (by apply backToState_history_cleared).
  assert (squares (backToState (backToState s k) k) = None) as Hsq by done.
  split_and!; [done|done|].
  unfold Game_render, Game. by rewrite Hsq.
Qed.
